(** * Daleks: the [Wrapper] interop shim (src/Wrapper/Wrapper.h)

  [Wrapper] is a C++/CLI [ref class] with five static members.  Each one is
  a single call into the C runtime ([time], [srand], [rand]) or the macro
  [RAND_MAX], returned through the member's declared managed type.

  The embedding is by explicit state passing.  The C runtime is not part of
  the repository, so it is a parameter ([CRuntime]); what the C standard
  promises about it is stated as separate propositions and assumed only by
  the theorems that need it. *)

From Stdlib Require Import ZArith List Lia Bool Sorted.
Import ListNotations.
Open Scope Z_scope.

(** ** Fixed-width integers of the member signatures *)

(** Conversion to [unsigned int] (32 bits): reduction modulo [2^32]. *)
Definition to_uint32 (z : Z) : Z := z mod 2 ^ 32.

(** Re-reading of a [width]-bit pattern [u] (with [0 <= u < 2^width]) as a
  two's complement number. *)
Definition reinterpret_signed (width u : Z) : Z :=
  if u <? 2 ^ (width - 1) then u else u - 2 ^ width.

(** Conversion to [int] (32 bits) and to [long long] (64 bits): the value
    modulo [2^width], read as two's complement.  A value in range is kept;
    a value out of range keeps its low bits. *)
Definition to_int32 (z : Z) : Z := reinterpret_signed 32 (z mod 2 ^ 32).
Definition to_int64 (z : Z) : Z := reinterpret_signed 64 (z mod 2 ^ 64).

Definition in_int32 (z : Z) : Prop := - 2 ^ 31 <= z <= 2 ^ 31 - 1.
Definition in_int64 (z : Z) : Prop := - 2 ^ 63 <= z <= 2 ^ 63 - 1.

(** ** The C runtime behind <time.h> and <stdlib.h> *)

(** [rng] is the hidden process-wide state that [srand] overwrites and [rand]
  advances; [RAND_MAX] is the value the macro expands to. *)
Record CRuntime : Type := {
  rng : Type;
  srand : Z -> rng -> rng;
  rand : rng -> Z * rng;
  RAND_MAX : Z
}.

Arguments srand {_} _ _.
Arguments rand {_} _.

(** The process as the five members see it.  [clock k] is what the [k]-th
  call of [time(0)] in this process reads off the platform clock (seconds
  since the epoch, a [time_t]); [reads] counts the calls made so far;
  [gen] is the generator state. *)
Record World (P : CRuntime) : Type := {
  clock : nat -> Z;
  reads : nat;
  gen : rng P
}.

Arguments Build_World {P} _ _ _.
Arguments clock {P} _ _.
Arguments reads {P} _.
Arguments gen {P} _.

(** The reading the next [time(0)] call will get. *)
Definition now {P : CRuntime} (w : World P) : Z := clock w (reads w).

(** [time(0)]: read the clock; one more read has been made. *)
Definition time {P : CRuntime} (w : World P) : Z * World P :=
  (now w, Build_World (clock w) (S (reads w)) (gen w)).

(** ** The five members *)

Module Wrapper.
Section Members.

Variable P : CRuntime.

(** [static long long Time() { return time(0); }] *)
Definition Time (w : World P) : Z * World P :=
  let (t, w') := time w in (to_int64 t, w').

(** [static int TimeCast() { return time(0); }] *)
Definition TimeCast (w : World P) : Z * World P :=
  let (t, w') := time w in (to_int32 t, w').

(** [static void SRand(unsigned int s) { srand(s); }] *)
Definition SRand (s : Z) (w : World P) : World P :=
  Build_World (clock w) (reads w) (srand (to_uint32 s) (gen w)).

(** [static int Rand() { return rand(); }] *)
Definition Rand (w : World P) : Z * World P :=
  let (v, g') := rand (gen w) in (v, Build_World (clock w) (reads w) g').

(** [static int RandMax() { return RAND_MAX; }] *)
Definition RandMax (w : World P) : Z * World P :=
  (to_int32 (RAND_MAX P), w).

End Members.

Arguments Time {P} w.
Arguments TimeCast {P} w.
Arguments SRand {P} s w.
Arguments Rand {P} w.
Arguments RandMax {P} w.

End Wrapper.

Import Wrapper.

(** ** Sequences of calls made by the managed caller *)

Inductive call : Type :=
| CTime
| CTimeCast
| CSRand (s : Z)
| CRand
| CRandMax.

(** What a member hands back: a [long long], an [int], or nothing. *)
Inductive ret : Type :=
| VLong (v : Z)
| VInt (v : Z)
| VVoid.

Section Runs.

Context {P : CRuntime}.

Definition step (c : call) (w : World P) : ret * World P :=
  match c with
  | CTime => let (v, w') := Time w in (VLong v, w')
  | CTimeCast => let (v, w') := TimeCast w in (VInt v, w')
  | CSRand s => (VVoid, SRand s w)
  | CRand => let (v, w') := Rand w in (VInt v, w')
  | CRandMax => let (v, w') := RandMax w in (VInt v, w')
  end.

(** The calls of [cs] issued in order from [w]: the values returned, in
    order, and the world left behind. *)
Fixpoint run (cs : list call) (w : World P) : list ret * World P :=
  match cs with
  | [] => ([], w)
  | c :: cs' =>
      let (r, w1) := step c w in
      let (rs, w2) := run cs' w1 in
      (r :: rs, w2)
  end.

Definition outputs (cs : list call) (w : World P) : list ret :=
  fst (run cs w).

(** The values returned by the [Rand] calls of a run, in call order. *)
Fixpoint rand_values (cs : list call) (rs : list ret) : list Z :=
  match cs, rs with
  | CRand :: cs', VInt v :: rs' => v :: rand_values cs' rs'
  | _ :: cs', _ :: rs' => rand_values cs' rs'
  | _, _ => []
  end.

Definition draws (cs : list call) (w : World P) : list Z :=
  rand_values cs (outputs cs w).

(** The values returned by the [Time] calls of a run, in call order. *)
Fixpoint time_values (cs : list call) (rs : list ret) : list Z :=
  match cs, rs with
  | CTime :: cs', VLong v :: rs' => v :: time_values cs' rs'
  | _ :: cs', _ :: rs' => time_values cs' rs'
  | _, _ => []
  end.

Definition times (cs : list call) (w : World P) : list Z :=
  time_values cs (outputs cs w).

(** The members that only query: [Time], [TimeCast], [RandMax]. *)
Definition is_query (c : call) : bool :=
  match c with
  | CTime | CTimeCast | CRandMax => true
  | CSRand _ | CRand => false
  end.

Definition erase_queries (cs : list call) : list call :=
  filter (fun c => negb (is_query c)) cs.

End Runs.

(** ** What the C standard promises about the runtime *)

(** The first [n] values of [rand] from generator state [g]. *)
Fixpoint c_sequence {P : CRuntime} (n : nat) (g : rng P) : list Z :=
  match n with
  | O => []
  | S n' => let (v, g') := rand g in v :: c_sequence n' g'
  end.

(** [rand] computes "integers in the range 0 to RAND_MAX". *)
Definition rand_in_range (P : CRuntime) : Prop :=
  forall g : rng P, 0 <= fst (rand g) <= RAND_MAX P.

(** [RAND_MAX] is "at least 32767", and it is the largest value of [rand],
    whose result type is [int]. *)
Definition rand_max_conforms (P : CRuntime) : Prop :=
  32767 <= RAND_MAX P <= 2 ^ 31 - 1.

(** "If srand is then called with the same seed value, the sequence of
    pseudo-random numbers shall be repeated", whatever the generator had
    reached before the call. *)
Definition srand_repeats (P : CRuntime) : Prop :=
  forall (s : Z) (g g' : rng P) (n : nat),
    c_sequence n (srand s g) = c_sequence n (srand s g').

(** The platform clock is not set back during the process. *)
Definition clock_not_set_back {P : CRuntime} (w : World P) : Prop :=
  forall i j : nat, (i <= j)%nat -> clock w i <= clock w j.

(** [time_t] is no wider than [long long]. *)
Definition clock_fits_int64 {P : CRuntime} (w : World P) : Prop :=
  forall k : nat, in_int64 (clock w k).

(** Two generator states that no number of [rand] calls tells apart. *)
Definition same_sequence {P : CRuntime} (g g' : rng P) : Prop :=
  forall n : nat, c_sequence n g = c_sequence n g'.

(** The clocks of two processes tick alike from where each stands. *)
Definition same_clock {P : CRuntime} (w w' : World P) : Prop :=
  forall k : nat, clock w (reads w + k) = clock w' (reads w' + k).

(** ** A conforming runtime to run the members on

    The linear congruential generator of the Microsoft C runtime, the
    runtime a C++/CLI assembly links against: a 32-bit state that [srand]
    overwrites with the seed, and 15 bits of it returned by [rand]. *)
Module Ucrt.

Definition ucrt_srand (s : Z) (_ : Z) : Z := s.

Definition ucrt_rand (g : Z) : Z * Z :=
  let g' := (g * 214013 + 2531011) mod 2 ^ 32 in
  (Z.land (Z.shiftr g' 16) 32767, g').

Definition runtime : CRuntime :=
  {| rng := Z; srand := ucrt_srand; rand := ucrt_rand; RAND_MAX := 32767 |}.

(** A clock that shows [t0] at the first read and gains a second between
    consecutive reads, up to the largest [time_t] (64 bits in this runtime). *)
Definition ticking (t0 : Z) (k : nat) : Z :=
  Z.min (t0 + Z.of_nat k) (2 ^ 63 - 1).

(** A process started at 2023-11-14 22:13:20 UTC, generator never seeded
    (the runtime starts it at 1). *)
Definition world0 : World runtime :=
  Build_World (P := runtime) (ticking 1700000000) O 1.

(** A process whose clock has passed the end of the 32-bit signed range and
    whose generator has already been used. *)
Definition world2038 : World runtime :=
  Build_World (P := runtime) (ticking (2 ^ 31 + 5)) 4%nat 987654321.

End Ucrt.

(** ** Clock readings of a run, wide and narrow together *)

(** The values returned by the [Time] and the [TimeCast] calls of a run, in
    call order. *)
Fixpoint reading_values (cs : list call) (rs : list ret) : list Z :=
  match cs, rs with
  | CTime :: cs', VLong v :: rs' => v :: reading_values cs' rs'
  | CTimeCast :: cs', VInt v :: rs' => v :: reading_values cs' rs'
  | _ :: cs', _ :: rs' => reading_values cs' rs'
  | _, _ => []
  end.

Definition readings {P : CRuntime} (cs : list call) (w : World P) : list Z :=
  reading_values cs (outputs cs w).

(** Every reading of the process is still a signed 32-bit number. *)
Definition clock_fits_int32 {P : CRuntime} (w : World P) : Prop :=
  forall k : nat, in_int32 (clock w k).

Module Ucrt32.

(** A clock that gains a second between consecutive reads and stops at the
    last second an [int] can hold. *)
Definition ticking32 (t0 : Z) (k : nat) : Z :=
  Z.min (t0 + Z.of_nat k) (2 ^ 31 - 1).

(** A process started two seconds before the 32-bit signed range ends. *)
Definition world_2038_eve : World Ucrt.runtime :=
  Build_World (P := Ucrt.runtime) (ticking32 (2 ^ 31 - 3)) O 1.

End Ucrt32.

(** ** Facts about the conversions *)

Ltac pow2 :=
  change (2 ^ 64) with 18446744073709551616 in *;
  change (2 ^ 63) with 9223372036854775808 in *;
  change (2 ^ 32) with 4294967296 in *;
  change (2 ^ 31) with 2147483648 in *.

Ltac unfold_conv :=
  unfold to_int32, to_int64, to_uint32, reinterpret_signed, in_int32, in_int64 in *;
  change (2 ^ (64 - 1)) with 9223372036854775808 in *;
  change (2 ^ (32 - 1)) with 2147483648 in *;
  pow2.

Lemma to_int32_range (z : Z) : in_int32 (to_int32 z).
Proof.
  unfold_conv.
  pose proof (Z.mod_pos_bound z 4294967296 eq_refl) as Hb.
  destruct (Z.ltb_spec (z mod 4294967296) 2147483648); lia.
Qed.

Lemma to_int64_range (z : Z) : in_int64 (to_int64 z).
Proof.
  unfold_conv.
  pose proof (Z.mod_pos_bound z 18446744073709551616 eq_refl) as Hb.
  destruct (Z.ltb_spec (z mod 18446744073709551616) 9223372036854775808); lia.
Qed.

Lemma to_int32_fits (z : Z) : in_int32 z -> to_int32 z = z.
Proof.
  intros Hz. unfold_conv.
  pose proof (Z.mod_pos_bound z 4294967296 eq_refl) as Hb.
  pose proof (Z.div_mod z 4294967296 ltac:(discriminate)) as Hd.
  destruct (Z.ltb_spec (z mod 4294967296) 2147483648); lia.
Qed.

Lemma to_int64_fits (z : Z) : in_int64 z -> to_int64 z = z.
Proof.
  intros Hz. unfold_conv.
  pose proof (Z.mod_pos_bound z 18446744073709551616 eq_refl) as Hb.
  pose proof (Z.div_mod z 18446744073709551616 ltac:(discriminate)) as Hd.
  destruct (Z.ltb_spec (z mod 18446744073709551616) 9223372036854775808); lia.
Qed.

(** The low 32 bits survive the widening to 64 bits. *)
Lemma low32_of_to_int64 (z : Z) : to_int64 z mod 2 ^ 32 = z mod 2 ^ 32.
Proof.
  unfold_conv.
  assert (Hlow : (z mod 18446744073709551616) mod 4294967296 = z mod 4294967296).
  { apply Z.mod_mod_divide. exists 4294967296. reflexivity. }
  destruct (Z.ltb_spec (z mod 18446744073709551616) 9223372036854775808).
  - exact Hlow.
  - rewrite <- Hlow.
    replace (z mod 18446744073709551616 - 18446744073709551616)
      with (z mod 18446744073709551616 + (- 4294967296) * 4294967296) by lia.
    apply Z.mod_add. discriminate.
Qed.

Lemma to_int32_of_to_int64 (z : Z) : to_int32 (to_int64 z) = to_int32 z.
Proof.
  unfold to_int32. rewrite low32_of_to_int64. reflexivity.
Qed.

(** ** One call *)

Section StepFacts.

Context {P : CRuntime}.

Lemma run_cons (c : call) (cs : list call) (w : World P) :
  run (c :: cs) w =
  (fst (step c w) :: fst (run cs (snd (step c w))),
   snd (run cs (snd (step c w)))).
Proof.
  simpl. destruct (step c w) as [r w1]. simpl.
  destruct (run cs w1) as [rs w2]. reflexivity.
Qed.

Lemma outputs_cons (c : call) (cs : list call) (w : World P) :
  outputs (c :: cs) w = fst (step c w) :: outputs cs (snd (step c w)).
Proof. unfold outputs. rewrite run_cons. reflexivity. Qed.

Lemma step_Time (w : World P) :
  step CTime w =
  (VLong (to_int64 (now w)), Build_World (clock w) (S (reads w)) (gen w)).
Proof. reflexivity. Qed.

Lemma step_TimeCast (w : World P) :
  step CTimeCast w =
  (VInt (to_int32 (now w)), Build_World (clock w) (S (reads w)) (gen w)).
Proof. reflexivity. Qed.

Lemma step_Rand (w : World P) :
  step CRand w =
  (VInt (fst (rand (gen w))),
   Build_World (clock w) (reads w) (snd (rand (gen w)))).
Proof. unfold step, Rand. destruct (rand (gen w)). reflexivity. Qed.

Lemma step_clock (c : call) (w : World P) : clock (snd (step c w)) = clock w.
Proof.
  destruct c; try reflexivity.
  rewrite step_Rand. reflexivity.
Qed.

Lemma step_reads (c : call) (w : World P) :
  (reads w <= reads (snd (step c w)))%nat.
Proof.
  destruct c; try (simpl; lia).
  rewrite step_Rand. simpl. lia.
Qed.

Lemma step_query_gen (c : call) (w : World P) :
  is_query c = true -> gen (snd (step c w)) = gen w.
Proof. destruct c; simpl; intros H; try discriminate; reflexivity. Qed.

Lemma outputs_length (cs : list call) (w : World P) :
  length (outputs cs w) = length cs.
Proof.
  revert w. induction cs as [|c cs IH]; intros w.
  - reflexivity.
  - rewrite outputs_cons. simpl. rewrite IH. reflexivity.
Qed.

End StepFacts.

(** ** Runs of calls *)

Section RunFacts.

Context {P : CRuntime}.

Lemma draws_nil (w : World P) : draws [] w = [].
Proof. reflexivity. Qed.

Lemma draws_Rand (cs : list call) (w : World P) :
  draws (CRand :: cs) w =
  fst (rand (gen w)) :: draws cs (snd (step CRand w)).
Proof.
  unfold draws. rewrite outputs_cons. rewrite step_Rand. reflexivity.
Qed.

Lemma draws_other (c : call) (cs : list call) (w : World P) :
  c <> CRand -> draws (c :: cs) w = draws cs (snd (step c w)).
Proof.
  intros Hc. unfold draws. rewrite outputs_cons.
  destruct c; try reflexivity. contradiction.
Qed.

Lemma times_Time (cs : list call) (w : World P) :
  times (CTime :: cs) w =
  to_int64 (now w) :: times cs (snd (step CTime w)).
Proof. unfold times. rewrite outputs_cons. reflexivity. Qed.

Lemma times_other (c : call) (cs : list call) (w : World P) :
  c <> CTime -> times (c :: cs) w = times cs (snd (step c w)).
Proof.
  intros Hc. unfold times. rewrite outputs_cons.
  destruct c; try reflexivity. contradiction.
Qed.

(** [N] consecutive [Rand] calls return the next [N] values of [rand]. *)
Lemma draws_repeat_Rand (n : nat) (w : World P) :
  draws (repeat CRand n) w = c_sequence n (gen w).
Proof.
  revert w. induction n as [|n IH]; intros w.
  - reflexivity.
  - change (repeat CRand (S n)) with (CRand :: repeat CRand n).
    rewrite draws_Rand, IH, step_Rand. simpl.
    destruct (rand (gen w)). reflexivity.
Qed.

Lemma c_sequence_length (n : nat) (g : rng P) : length (c_sequence n g) = n.
Proof.
  revert g. induction n as [|n IH]; intros g; simpl.
  - reflexivity.
  - destruct (rand g) as [v g']. simpl. rewrite IH. reflexivity.
Qed.

(** Every value a [Rand] call returns is a value of [rand]. *)
Lemma draws_in_range (cs : list call) (w : World P) :
  rand_in_range P -> Forall (fun v => 0 <= v <= RAND_MAX P) (draws cs w).
Proof.
  intros Hr. revert w. induction cs as [|c cs IH]; intros w.
  - constructor.
  - destruct c; try (rewrite draws_other by discriminate; apply IH).
    rewrite draws_Rand. constructor; [apply Hr | apply IH].
Qed.

(** The queries can be dropped from a run without changing its draws. *)
Lemma draws_erase_queries (cs : list call) (w w' : World P) :
  gen w = gen w' -> draws cs w = draws (erase_queries cs) w'.
Proof.
  revert w w'. induction cs as [|c cs IH]; intros w w' Hg.
  - reflexivity.
  - destruct c; simpl erase_queries.
    + rewrite draws_other by discriminate. apply IH. exact Hg.
    + rewrite draws_other by discriminate. apply IH. exact Hg.
    + rewrite !draws_other by discriminate. apply IH.
      simpl. rewrite Hg. reflexivity.
    + rewrite !draws_Rand, Hg. f_equal. apply IH.
      rewrite !step_Rand. simpl. rewrite Hg. reflexivity.
    + rewrite draws_other by discriminate. apply IH. exact Hg.
Qed.

Lemma erase_queries_repeat_Rand (n : nat) :
  erase_queries (repeat CRand n) = repeat CRand n.
Proof.
  induction n as [|n IH]; [reflexivity|].
  change (erase_queries (repeat CRand (S n)))
    with (CRand :: erase_queries (repeat CRand n)).
  rewrite IH. reflexivity.
Qed.

(** Every [RandMax] call of a run returns the converted macro. *)
Lemma outputs_RandMax (cs : list call) (w : World P) (i : nat) :
  nth_error cs i = Some CRandMax ->
  nth_error (outputs cs w) i = Some (VInt (to_int32 (RAND_MAX P))).
Proof.
  revert w i. induction cs as [|c cs IH]; intros w i Hi.
  - destruct i; discriminate.
  - rewrite outputs_cons. destruct i as [|i]; simpl in *.
    + injection Hi as ->. reflexivity.
    + apply IH. exact Hi.
Qed.

(** *** Generator states that cannot be told apart *)

Lemma same_sequence_rand (g g' : rng P) :
  same_sequence g g' ->
  fst (rand g) = fst (rand g') /\ same_sequence (snd (rand g)) (snd (rand g')).
Proof.
  intros H. split.
  - specialize (H 1%nat). simpl in H.
    destruct (rand g), (rand g'). simpl. congruence.
  - intros n. specialize (H (S n)). simpl in H.
    destruct (rand g), (rand g'). simpl. congruence.
Qed.

Lemma same_clock_now (w w' : World P) : same_clock w w' -> now w = now w'.
Proof.
  intros H. specialize (H O). rewrite !Nat.add_0_r in H. exact H.
Qed.

Lemma same_clock_after_read (w w' : World P) (g g' : rng P) :
  same_clock w w' ->
  same_clock (Build_World (clock w) (S (reads w)) g)
             (Build_World (clock w') (S (reads w')) g').
Proof.
  intros H k. simpl. specialize (H (S k)).
  rewrite !Nat.add_succ_r in H. exact H.
Qed.

Lemma same_clock_no_read (w w' : World P) (g g' : rng P) :
  same_clock w w' ->
  same_clock (Build_World (clock w) (reads w) g)
             (Build_World (clock w') (reads w') g').
Proof. intros H k. exact (H k). Qed.

(** Two processes whose generators cannot be told apart and whose clocks
    tick alike return the same values to every sequence of calls. *)
Lemma outputs_indistinguishable (cs : list call) (w w' : World P) :
  srand_repeats P ->
  same_sequence (gen w) (gen w') -> same_clock w w' ->
  outputs cs w = outputs cs w'.
Proof.
  intros Hs. revert w w'. induction cs as [|c cs IH]; intros w w' Hg Hc.
  - reflexivity.
  - rewrite !outputs_cons. destruct c.
    + rewrite !step_Time. simpl. rewrite (same_clock_now w w' Hc).
      f_equal. apply IH; [exact Hg | apply same_clock_after_read; exact Hc].
    + rewrite !step_TimeCast. simpl. rewrite (same_clock_now w w' Hc).
      f_equal. apply IH; [exact Hg | apply same_clock_after_read; exact Hc].
    + simpl. f_equal. apply IH.
      * intros n. apply Hs.
      * apply same_clock_no_read. exact Hc.
    + rewrite !step_Rand. simpl.
      destruct (same_sequence_rand _ _ Hg) as [Hv Hg'].
      rewrite Hv. f_equal. apply IH.
      * exact Hg'.
      * apply same_clock_no_read. exact Hc.
    + simpl. f_equal. apply IH; assumption.
Qed.

(** The draws alone do not depend on the clocks at all. *)
Lemma draws_indistinguishable (cs : list call) (w w' : World P) :
  srand_repeats P ->
  same_sequence (gen w) (gen w') -> draws cs w = draws cs w'.
Proof.
  intros Hs. revert w w'. induction cs as [|c cs IH]; intros w w' Hg.
  - reflexivity.
  - destruct c; try (rewrite !draws_other by discriminate; apply IH; exact Hg).
    + rewrite !draws_other by discriminate. apply IH.
      intros n. apply Hs.
    + rewrite !draws_Rand.
      destruct (same_sequence_rand _ _ Hg) as [Hv Hg'].
      rewrite Hv. f_equal. apply IH. rewrite !step_Rand. exact Hg'.
Qed.

(** *** The clock readings of a run *)

Lemma times_from_clock (cs : list call) (w : World P) :
  Forall (fun v => exists k, (reads w <= k)%nat /\ v = to_int64 (clock w k))
         (times cs w).
Proof.
  revert w. induction cs as [|c cs IH]; intros w.
  - constructor.
  - assert (Hrest :
      Forall (fun v => exists k, (reads w <= k)%nat /\ v = to_int64 (clock w k))
             (times cs (snd (step c w)))).
    { eapply Forall_impl; [|apply IH].
      intros v [k [Hk Hv]]. exists k. split.
      - pose proof (step_reads c w). lia.
      - rewrite step_clock in Hv. exact Hv. }
    destruct c; try (rewrite times_other by discriminate; exact Hrest).
    rewrite times_Time. constructor; [|exact Hrest].
    exists (reads w). split; [lia | reflexivity].
Qed.

Lemma times_sorted (cs : list call) (w : World P) :
  clock_not_set_back w -> clock_fits_int64 w ->
  StronglySorted Z.le (times cs w).
Proof.
  revert w. induction cs as [|c cs IH]; intros w Hm Hf.
  - constructor.
  - assert (Hm' : clock_not_set_back (snd (step c w))).
    { intros i j Hij. rewrite step_clock. apply Hm. exact Hij. }
    assert (Hf' : clock_fits_int64 (snd (step c w))).
    { intros k. rewrite step_clock. apply Hf. }
    destruct c; try (rewrite times_other by discriminate; apply IH; assumption).
    rewrite times_Time. constructor.
    + apply IH; assumption.
    + eapply Forall_impl; [|apply times_from_clock].
      intros v [k [Hk Hv]]. subst v. simpl in Hk.
      rewrite !to_int64_fits by (try apply Hf; rewrite ?step_clock; apply Hf).
      rewrite step_clock. apply Hm. unfold now. simpl. lia.
Qed.

Lemma times_repeat_Time_length (n : nat) (w : World P) :
  length (times (repeat CTime n) w) = n.
Proof.
  revert w. induction n as [|n IH]; intros w.
  - reflexivity.
  - change (repeat CTime (S n)) with (CTime :: repeat CTime n).
    rewrite times_Time. simpl. rewrite IH. reflexivity.
Qed.

End RunFacts.

(** ** The sample runtime conforms *)

Lemma low_15_bits (x : Z) : 0 <= Z.land x 32767 <= 32767.
Proof.
  assert (H : Z.land x 32767 = x mod 32768).
  { change 32767 with (Z.ones 15). rewrite Z.land_ones by lia. reflexivity. }
  rewrite H. pose proof (Z.mod_pos_bound x 32768 eq_refl). lia.
Qed.

Lemma ucrt_rand_in_range : rand_in_range Ucrt.runtime.
Proof. intros g. apply low_15_bits. Qed.

Lemma ucrt_rand_max_conforms : rand_max_conforms Ucrt.runtime.
Proof. unfold rand_max_conforms. simpl RAND_MAX. pow2. lia. Qed.

Lemma ucrt_srand_repeats : srand_repeats Ucrt.runtime.
Proof. intros s g g' n. reflexivity. Qed.

Lemma ticking_not_set_back (t0 : Z) (r : nat) (g : Z) :
  clock_not_set_back (Build_World (P := Ucrt.runtime) (Ucrt.ticking t0) r g).
Proof. intros i j Hij. cbn [clock]. unfold Ucrt.ticking. lia. Qed.

Lemma ticking_fits_int64 (t0 : Z) (r : nat) (g : Z) :
  - 2 ^ 63 <= t0 ->
  clock_fits_int64 (Build_World (P := Ucrt.runtime) (Ucrt.ticking t0) r g).
Proof.
  intros H0 k. cbn [clock]. unfold Ucrt.ticking, in_int64 in *. pow2. lia.
Qed.

(** The members run on the sample runtime. *)

Example ucrt_run_world0 :
  outputs [CSRand 1; CRand; CRand; CTime; CTimeCast; CRandMax; CRand]
          Ucrt.world0
  = [VVoid; VInt 41; VInt 18467; VLong 1700000000; VInt 1700000001;
     VInt 32767; VInt 6334].
Proof. vm_compute. reflexivity. Qed.

Example ucrt_run_world2038 :
  outputs [CTime; CTimeCast; CSRand 1; CRand] Ucrt.world2038
  = [VLong 2147483657; VInt (-2147483638); VVoid; VInt 41].
Proof. vm_compute. reflexivity. Qed.

(** The scenario of the specification: seed with 1, draw twice, seed with 1
    again, draw once; the third draw repeats the first. *)
Example ucrt_reseed_scenario :
  draws [CSRand 1; CRand; CRand; CSRand 1; CRand] Ucrt.world0 = [41; 18467; 41].
Proof. vm_compute. reflexivity. Qed.

(** ** The claims *)

(** C1.  Determinism of the seeded generator.  On one runtime, [SRand s]
    followed by [N] calls of [Rand] returns the same [N] values in every
    process, whatever its clock shows and whatever its generator had reached
    before the seeding; more generally the [Rand] values of any sequence of
    calls that starts with [SRand s] depend on [s] and the sequence only.
    Assumes the runtime repeats the sequence of a seed. *)
Theorem seeded_draws_deterministic
  (P : CRuntime) (s : Z) (N : nat) (w1 w2 : World P) :
  srand_repeats P ->
  draws (CSRand s :: repeat CRand N) w1 = draws (CSRand s :: repeat CRand N) w2
  /\ length (draws (CSRand s :: repeat CRand N) w1) = N
  /\ forall cs : list call,
       draws (CSRand s :: cs) w1 = draws (CSRand s :: cs) w2.
Proof.
  intros Hs.
  assert (Hseed : same_sequence (gen (SRand s w1)) (gen (SRand s w2))).
  { intros n. apply Hs. }
  split; [|split].
  - rewrite !(draws_other (CSRand s)) by discriminate.
    rewrite !draws_repeat_Rand. apply Hseed.
  - rewrite (draws_other (CSRand s)) by discriminate.
    rewrite draws_repeat_Rand. apply c_sequence_length.
  - intros cs. rewrite !(draws_other (CSRand s)) by discriminate.
    apply draws_indistinguishable; assumption.
Qed.

Lemma seeded_draws_deterministic_witness :
  srand_repeats Ucrt.runtime
  /\ draws (CSRand 42 :: repeat CRand 3) Ucrt.world0 = [175; 400; 17869]
  /\ draws (CSRand 42 :: repeat CRand 3) Ucrt.world0
     = draws (CSRand 42 :: repeat CRand 3) Ucrt.world2038
  /\ length (draws (CSRand 42 :: repeat CRand 3) Ucrt.world0) = 3%nat
  /\ forall cs : list call,
       draws (CSRand 42 :: cs) Ucrt.world0
       = draws (CSRand 42 :: cs) Ucrt.world2038.
Proof.
  split; [exact ucrt_srand_repeats|]. split; [vm_compute; reflexivity|].
  exact (seeded_draws_deterministic Ucrt.runtime 42 3 Ucrt.world0 Ucrt.world2038
           ucrt_srand_repeats).
Defined.

(** C2.  Narrow time is truncated wide time.  When [TimeCast] and [Time]
    get the same clock reading (one read, or two reads in the same second),
    the value of [TimeCast] is the value of [Time] reduced modulo [2^32] and
    read as a signed 32-bit number. *)
Theorem TimeCast_truncates_Time (P : CRuntime) (w1 w2 : World P) :
  now w1 = now w2 ->
  fst (TimeCast w2) = reinterpret_signed 32 (fst (Time w1) mod 2 ^ 32).
Proof.
  intros Hnow. unfold TimeCast, Time, time. simpl fst.
  rewrite Hnow. symmetry. apply to_int32_of_to_int64.
Qed.

Lemma TimeCast_truncates_Time_witness :
  now Ucrt.world2038 = now Ucrt.world2038
  /\ fst (Time Ucrt.world2038) = 2147483657
  /\ fst (TimeCast Ucrt.world2038)
     = reinterpret_signed 32 (fst (Time Ucrt.world2038) mod 2 ^ 32).
Proof.
  split; [reflexivity|]. split; [vm_compute; reflexivity|].
  apply (TimeCast_truncates_Time Ucrt.runtime Ucrt.world2038 Ucrt.world2038).
  reflexivity.
Defined.

(** C3.  Range of draws.  After [SRand s], every value returned by a later
    [Rand] call, whatever other calls come between, lies between 0 and the
    value of [RandMax]; in particular [SRand s] and two [Rand] calls return
    two values, both in that range.  Assumes [rand] stays within
    [0 .. RAND_MAX] and [RAND_MAX] is a conforming [int]. *)
Theorem Rand_within_RandMax
  (P : CRuntime) (s : Z) (cs : list call) (w w0 : World P) :
  rand_in_range P -> rand_max_conforms P ->
  Forall (fun v => 0 <= v <= fst (RandMax w0)) (draws (CSRand s :: cs) w)
  /\ exists v1 v2 : Z,
       draws [CSRand s; CRand; CRand] w = [v1; v2]
       /\ 0 <= v1 <= fst (RandMax w0) /\ 0 <= v2 <= fst (RandMax w0).
Proof.
  intros Hr Hm.
  assert (Hmax : fst (RandMax w0) = RAND_MAX P).
  { simpl. apply to_int32_fits. unfold rand_max_conforms, in_int32 in *.
    pow2. lia. }
  rewrite Hmax. split.
  - apply draws_in_range. exact Hr.
  - pose proof (draws_in_range [CSRand s; CRand; CRand] w Hr) as Hall.
    rewrite draws_other in Hall |- * by discriminate.
    rewrite draws_Rand in Hall |- *. rewrite draws_Rand in Hall |- *.
    rewrite draws_nil in Hall |- *.
    inversion Hall as [|v1 l1 H1 Hall1]; subst.
    inversion Hall1 as [|v2 l2 H2 _]; subst.
    eexists. eexists. split; [reflexivity|]. split; assumption.
Qed.

Lemma Rand_within_RandMax_witness :
  rand_in_range Ucrt.runtime /\ rand_max_conforms Ucrt.runtime
  /\ Forall (fun v => 0 <= v <= fst (RandMax Ucrt.world2038))
       (draws (CSRand 1 :: [CRand; CTime; CRand; CSRand 7; CRand]) Ucrt.world0)
  /\ exists v1 v2 : Z,
       draws [CSRand 1; CRand; CRand] Ucrt.world0 = [v1; v2]
       /\ 0 <= v1 <= fst (RandMax Ucrt.world2038)
       /\ 0 <= v2 <= fst (RandMax Ucrt.world2038).
Proof.
  split; [exact ucrt_rand_in_range|]. split; [exact ucrt_rand_max_conforms|].
  exact (Rand_within_RandMax Ucrt.runtime 1 [CRand; CTime; CRand; CSRand 7; CRand]
           Ucrt.world0 Ucrt.world2038
           ucrt_rand_in_range ucrt_rand_max_conforms).
Defined.

(** C4.  [RandMax] returns a non-negative constant.  There is one
    non-negative value that every [RandMax] call returns, at every position
    of every sequence of calls of the five members, from every state of the
    process.  Assumes [RAND_MAX] is a conforming [int]. *)
Theorem RandMax_constant_nonneg (P : CRuntime) :
  rand_max_conforms P ->
  exists k : Z,
    0 <= k
    /\ forall (cs : list call) (w : World P) (i : nat),
         nth_error cs i = Some CRandMax ->
         nth_error (outputs cs w) i = Some (VInt k).
Proof.
  intros Hm. exists (to_int32 (RAND_MAX P)). split.
  - rewrite to_int32_fits.
    + unfold rand_max_conforms in Hm. lia.
    + unfold rand_max_conforms, in_int32 in *. pow2. lia.
  - intros cs w i Hi. apply outputs_RandMax. exact Hi.
Qed.

Lemma RandMax_constant_nonneg_witness :
  rand_max_conforms Ucrt.runtime
  /\ exists k : Z,
       0 <= k
       /\ forall (cs : list call) (w : World Ucrt.runtime) (i : nat),
            nth_error cs i = Some CRandMax ->
            nth_error (outputs cs w) i = Some (VInt k).
Proof.
  split; [exact ucrt_rand_max_conforms|].
  exact (RandMax_constant_nonneg Ucrt.runtime ucrt_rand_max_conforms).
Defined.

(** C5.  [Time] returns the reading of the platform clock, the whole
    seconds since the epoch that [time(0)] reports, unchanged and as a
    signed 64-bit integer.  Assumes the reading, a [time_t], is no wider
    than 64 bits. *)
Theorem Time_returns_clock_reading (P : CRuntime) (w : World P) :
  in_int64 (now w) ->
  fst (Time w) = now w /\ in_int64 (fst (Time w)).
Proof.
  intros Hfit. unfold Time, time. simpl fst.
  rewrite to_int64_fits by exact Hfit. split; [reflexivity | exact Hfit].
Qed.

Lemma Time_returns_clock_reading_witness :
  in_int64 (now Ucrt.world0)
  /\ fst (Time Ucrt.world0) = 1700000000
  /\ fst (Time Ucrt.world0) = now Ucrt.world0
  /\ in_int64 (fst (Time Ucrt.world0)).
Proof.
  assert (Hfit : in_int64 (now Ucrt.world0)).
  { unfold in_int64. vm_compute. split; discriminate. }
  split; [exact Hfit|]. split; [vm_compute; reflexivity|].
  exact (Time_returns_clock_reading Ucrt.runtime Ucrt.world0 Hfit).
Defined.

(** C6.  Clock monotonicity.  [n] consecutive [Time] calls return [n]
    values, each at least as large as every value returned before it.
    Assumes the platform clock is not set back and its readings fit in
    64 bits. *)
Theorem Time_monotone (P : CRuntime) (n : nat) (w : World P) :
  clock_not_set_back w -> clock_fits_int64 w ->
  length (times (repeat CTime n) w) = n
  /\ StronglySorted Z.le (times (repeat CTime n) w).
Proof.
  intros Hm Hf. split.
  - apply times_repeat_Time_length.
  - apply times_sorted; assumption.
Qed.

Lemma Time_monotone_witness :
  clock_not_set_back Ucrt.world0 /\ clock_fits_int64 Ucrt.world0
  /\ times (repeat CTime 3) Ucrt.world0
     = [1700000000; 1700000001; 1700000002]
  /\ length (times (repeat CTime 3) Ucrt.world0) = 3%nat
  /\ StronglySorted Z.le (times (repeat CTime 3) Ucrt.world0).
Proof.
  assert (Hm : clock_not_set_back Ucrt.world0).
  { apply ticking_not_set_back. }
  assert (Hf : clock_fits_int64 Ucrt.world0).
  { apply ticking_fits_int64. vm_compute. discriminate. }
  split; [exact Hm|]. split; [exact Hf|]. split; [vm_compute; reflexivity|].
  exact (Time_monotone Ucrt.runtime 3 Ucrt.world0 Hm Hf).
Defined.

(** C8.  Frame property.  [Time], [TimeCast] and [RandMax] leave the
    generator state as it was; and when a sequence of calls [cs] is [n]
    [Rand] calls with any number of [Time], [TimeCast] and [RandMax] calls
    among them, the values [Rand] returns after [SRand s] are those it
    returns to the [n] calls alone. *)
Theorem queries_frame_generator
  (P : CRuntime) (s : Z) (n : nat) (cs : list call) (w : World P) :
  erase_queries cs = repeat CRand n ->
  gen (snd (Time w)) = gen w
  /\ gen (snd (TimeCast w)) = gen w
  /\ gen (snd (RandMax w)) = gen w
  /\ draws (CSRand s :: cs) w = draws (CSRand s :: repeat CRand n) w.
Proof.
  intros Hcs. repeat split.
  rewrite !(draws_other (CSRand s)) by discriminate.
  rewrite <- Hcs. apply draws_erase_queries. reflexivity.
Qed.

Lemma queries_frame_generator_witness :
  erase_queries [CTime; CRand; CRandMax; CRand; CTimeCast; CTime; CRand]
  = repeat CRand 3
  /\ gen (snd (Time Ucrt.world2038)) = gen Ucrt.world2038
  /\ gen (snd (TimeCast Ucrt.world2038)) = gen Ucrt.world2038
  /\ gen (snd (RandMax Ucrt.world2038)) = gen Ucrt.world2038
  /\ draws (CSRand 1 :: [CTime; CRand; CRandMax; CRand; CTimeCast; CTime; CRand])
       Ucrt.world2038
     = draws (CSRand 1 :: repeat CRand 3) Ucrt.world2038.
Proof.
  split; [reflexivity|].
  apply (queries_frame_generator Ucrt.runtime 1 3
           [CTime; CRand; CRandMax; CRand; CTimeCast; CTime; CRand]
           Ucrt.world2038).
  reflexivity.
Defined.

(** C9.  Seeding is idempotent.  After [SRand s] twice in a row the process
    answers every later sequence of calls exactly as after [SRand s] once;
    so the generator states cannot be told apart, and the [Rand] values that
    follow are the same.  Assumes the runtime repeats the sequence of a
    seed. *)
Theorem SRand_idempotent
  (P : CRuntime) (s : Z) (cs : list call) (w : World P) :
  srand_repeats P ->
  outputs cs (SRand s (SRand s w)) = outputs cs (SRand s w)
  /\ draws cs (SRand s (SRand s w)) = draws cs (SRand s w)
  /\ same_sequence (gen (SRand s (SRand s w))) (gen (SRand s w)).
Proof.
  intros Hs.
  assert (Hg : same_sequence (gen (SRand s (SRand s w))) (gen (SRand s w))).
  { intros n. apply Hs. }
  assert (Ho : outputs cs (SRand s (SRand s w)) = outputs cs (SRand s w)).
  { apply outputs_indistinguishable.
    - exact Hs.
    - exact Hg.
    - intros k. reflexivity. }
  split; [exact Ho|]. split; [|exact Hg].
  unfold draws. rewrite Ho. reflexivity.
Qed.

Lemma SRand_idempotent_witness :
  srand_repeats Ucrt.runtime
  /\ outputs [CRand; CTime; CRand] (SRand 7 (SRand 7 Ucrt.world0))
     = outputs [CRand; CTime; CRand] (SRand 7 Ucrt.world0)
  /\ draws [CRand; CTime; CRand] (SRand 7 (SRand 7 Ucrt.world0))
     = draws [CRand; CTime; CRand] (SRand 7 Ucrt.world0)
  /\ same_sequence (gen (SRand 7 (SRand 7 Ucrt.world0)))
                   (gen (SRand 7 Ucrt.world0)).
Proof.
  split.
  - intros s g g' n. reflexivity.
  - apply (SRand_idempotent Ucrt.runtime 7 [CRand; CTime; CRand] Ucrt.world0).
    intros s g g' n. reflexivity.
Defined.

(** C10.  Lower bound on the generator range.  [RandMax] returns
    [RAND_MAX] itself, which is at least 32767 and is a signed 32-bit
    value, and every value [Rand] returns is a signed 32-bit value that the
    conversion to [int] leaves as it is.  Assumes [RAND_MAX] is a conforming
    [int] and [rand] stays within [0 .. RAND_MAX]. *)
Theorem RandMax_at_least_32767
  (P : CRuntime) (w : World P) :
  rand_max_conforms P -> rand_in_range P ->
  32767 <= fst (RandMax w)
  /\ in_int32 (fst (RandMax w))
  /\ fst (RandMax w) = RAND_MAX P
  /\ in_int32 (fst (Rand w))
  /\ to_int32 (fst (Rand w)) = fst (Rand w).
Proof.
  intros Hm Hr.
  assert (Hmax : fst (RandMax w) = RAND_MAX P).
  { simpl. apply to_int32_fits. unfold rand_max_conforms, in_int32 in *.
    pow2. lia. }
  assert (Hv : in_int32 (fst (Rand w))).
  { unfold Rand. specialize (Hr (gen w)).
    destruct (rand (gen w)) as [v g']. simpl in *.
    unfold rand_max_conforms, in_int32 in *. pow2. lia. }
  rewrite Hmax. unfold rand_max_conforms in Hm.
  split; [lia|]. split; [unfold in_int32; pow2; lia|].
  split; [reflexivity|]. split; [exact Hv|].
  apply to_int32_fits. exact Hv.
Qed.

Lemma RandMax_at_least_32767_witness :
  rand_max_conforms Ucrt.runtime /\ rand_in_range Ucrt.runtime
  /\ fst (RandMax Ucrt.world0) = 32767
  /\ 32767 <= fst (RandMax Ucrt.world0)
  /\ in_int32 (fst (RandMax Ucrt.world0))
  /\ fst (RandMax Ucrt.world0) = RAND_MAX Ucrt.runtime
  /\ in_int32 (fst (Rand Ucrt.world0))
  /\ to_int32 (fst (Rand Ucrt.world0)) = fst (Rand Ucrt.world0).
Proof.
  split; [exact ucrt_rand_max_conforms|]. split; [exact ucrt_rand_in_range|].
  split; [vm_compute; reflexivity|].
  exact (RandMax_at_least_32767 Ucrt.runtime Ucrt.world0
           ucrt_rand_max_conforms ucrt_rand_in_range).
Defined.

(** ** Further properties of the members *)

Lemma to_int32_fixed_iff (z : Z) : to_int32 z = z <-> in_int32 z.
Proof.
  split.
  - intros H. rewrite <- H. apply to_int32_range.
  - apply to_int32_fits.
Qed.

Lemma reinterpret_signed_32_injective (u v : Z) :
  0 <= u < 2 ^ 32 -> 0 <= v < 2 ^ 32 ->
  reinterpret_signed 32 u = reinterpret_signed 32 v -> u = v.
Proof.
  unfold reinterpret_signed.
  change (2 ^ (32 - 1)) with 2147483648. pow2.
  intros Hu Hv.
  destruct (Z.ltb_spec u 2147483648), (Z.ltb_spec v 2147483648); lia.
Qed.

Lemma to_int32_eq_iff (a b : Z) :
  to_int32 a = to_int32 b <-> a mod 2 ^ 32 = b mod 2 ^ 32.
Proof.
  unfold to_int32. split.
  - apply reinterpret_signed_32_injective; apply Z.mod_pos_bound; reflexivity.
  - intros H. rewrite H. reflexivity.
Qed.

Lemma c_sequence_prefix {P : CRuntime} (n m : nat) (g : rng P) :
  (n <= m)%nat -> firstn n (c_sequence m g) = c_sequence n g.
Proof.
  revert m g. induction n as [|n IH]; intros m g Hnm.
  - reflexivity.
  - destruct m as [|m]; [lia|]. simpl.
    destruct (rand g) as [v g']. simpl. rewrite IH by lia. reflexivity.
Qed.

(** The draws of two runs issued one after the other. *)
Lemma draws_app {P : CRuntime} (cs1 cs2 : list call) (w : World P) :
  draws (cs1 ++ cs2) w = draws cs1 w ++ draws cs2 (snd (run cs1 w)).
Proof.
  revert w. induction cs1 as [|c cs1 IH]; intros w.
  - reflexivity.
  - rewrite run_cons. simpl snd. destruct c;
      try (rewrite <- app_comm_cons, !draws_other by discriminate; apply IH).
    rewrite <- app_comm_cons, !draws_Rand, IH. reflexivity.
Qed.

Lemma readings_Time {P : CRuntime} (cs : list call) (w : World P) :
  readings (CTime :: cs) w
  = to_int64 (now w) :: readings cs (snd (step CTime w)).
Proof. unfold readings. rewrite outputs_cons. reflexivity. Qed.

Lemma readings_TimeCast {P : CRuntime} (cs : list call) (w : World P) :
  readings (CTimeCast :: cs) w
  = to_int32 (now w) :: readings cs (snd (step CTimeCast w)).
Proof. unfold readings. rewrite outputs_cons. reflexivity. Qed.

Lemma readings_other {P : CRuntime} (c : call) (cs : list call) (w : World P) :
  c <> CTime -> c <> CTimeCast ->
  readings (c :: cs) w = readings cs (snd (step c w)).
Proof.
  intros H1 H2. unfold readings. rewrite outputs_cons.
  destruct c; try reflexivity; contradiction.
Qed.

(** While the clock fits in 32 bits every reading of a run, wide or narrow,
    is the clock's own value at some later read. *)
Lemma readings_from_clock {P : CRuntime} (cs : list call) (w : World P) :
  clock_fits_int32 w ->
  Forall (fun v => exists k, (reads w <= k)%nat /\ v = clock w k)
         (readings cs w).
Proof.
  intros Hf. revert w Hf. induction cs as [|c cs IH]; intros w Hf.
  - constructor.
  - assert (Hf' : clock_fits_int32 (snd (step c w))).
    { intros k. rewrite step_clock. apply Hf. }
    assert (Hrest :
      Forall (fun v => exists k, (reads w <= k)%nat /\ v = clock w k)
             (readings cs (snd (step c w)))).
    { eapply Forall_impl; [|apply (IH _ Hf')].
      intros v [k [Hk Hv]]. exists k. split.
      - pose proof (step_reads c w). lia.
      - rewrite step_clock in Hv. exact Hv. }
    assert (H32 : in_int32 (now w)) by apply Hf.
    assert (H64 : in_int64 (now w)).
    { unfold in_int32, in_int64 in *. pow2. lia. }
    destruct c; try (rewrite readings_other by discriminate; exact Hrest).
    + rewrite readings_Time. constructor; [|exact Hrest].
      exists (reads w). split; [lia | apply to_int64_fits; exact H64].
    + rewrite readings_TimeCast. constructor; [|exact Hrest].
      exists (reads w). split; [lia | apply to_int32_fits; exact H32].
Qed.

Lemma ticking32_not_set_back (t0 : Z) (r : nat) (g : Z) :
  clock_not_set_back
    (Build_World (P := Ucrt.runtime) (Ucrt32.ticking32 t0) r g).
Proof. intros i j Hij. cbn [clock]. unfold Ucrt32.ticking32. lia. Qed.

Lemma ticking32_fits_int32 (t0 : Z) (r : nat) (g : Z) :
  - 2 ^ 31 <= t0 ->
  clock_fits_int32
    (Build_World (P := Ucrt.runtime) (Ucrt32.ticking32 t0) r g).
Proof.
  intros H0 k. cbn [clock]. unfold Ucrt32.ticking32, in_int32 in *. pow2. lia.
Qed.

(** X1.  [TimeCast] and [Time] return the same number exactly when the clock
    reading fits in a signed 32-bit [int]; for every other reading the two
    members disagree.  Assumes the reading fits in 64 bits. *)
Theorem TimeCast_agrees_with_Time_iff (P : CRuntime) (w : World P) :
  in_int64 (now w) ->
  (fst (TimeCast w) = fst (Time w) <-> in_int32 (now w)).
Proof.
  intros H64. unfold TimeCast, Time, time. simpl fst.
  rewrite (to_int64_fits _ H64). apply to_int32_fixed_iff.
Qed.

Lemma TimeCast_agrees_with_Time_iff_witness :
  in_int64 (now Ucrt.world2038)
  /\ fst (TimeCast Ucrt.world2038) <> fst (Time Ucrt.world2038)
  /\ (fst (TimeCast Ucrt.world2038) = fst (Time Ucrt.world2038)
      <-> in_int32 (now Ucrt.world2038)).
Proof.
  assert (Hfit : in_int64 (now Ucrt.world2038)).
  { unfold in_int64. vm_compute. split; discriminate. }
  split; [exact Hfit|]. split; [vm_compute; discriminate|].
  exact (TimeCast_agrees_with_Time_iff Ucrt.runtime Ucrt.world2038 Hfit).
Defined.

(** X2.  Past the 32-bit signed range: for a clock reading [t] with
    [2^31 <= t < 2^32], [TimeCast] returns [t - 2^32], a negative number,
    while [Time] still returns [t]. *)
Theorem TimeCast_negative_past_int32 (P : CRuntime) (w : World P) :
  2 ^ 31 <= now w < 2 ^ 32 ->
  fst (TimeCast w) = now w - 2 ^ 32
  /\ fst (TimeCast w) < 0
  /\ fst (Time w) = now w.
Proof.
  intros Ht. unfold TimeCast, Time, time. simpl fst.
  assert (H64 : in_int64 (now w)).
  { unfold in_int64. pow2. lia. }
  rewrite (to_int64_fits _ H64).
  assert (Hc : to_int32 (now w) = now w - 2 ^ 32).
  { unfold to_int32, reinterpret_signed.
    change (2 ^ (32 - 1)) with (2 ^ 31).
    rewrite Z.mod_small by lia.
    destruct (Z.ltb_spec (now w) (2 ^ 31)); [lia | reflexivity]. }
  rewrite Hc. split; [reflexivity|]. split; [lia | reflexivity].
Qed.

Lemma TimeCast_negative_past_int32_witness :
  2 ^ 31 <= now Ucrt.world2038 < 2 ^ 32
  /\ fst (TimeCast Ucrt.world2038) = -2147483639
  /\ fst (TimeCast Ucrt.world2038) = now Ucrt.world2038 - 2 ^ 32
  /\ fst (TimeCast Ucrt.world2038) < 0
  /\ fst (Time Ucrt.world2038) = now Ucrt.world2038.
Proof.
  assert (Ht : 2 ^ 31 <= now Ucrt.world2038 < 2 ^ 32).
  { vm_compute. split; [discriminate | reflexivity]. }
  split; [exact Ht|]. split; [vm_compute; reflexivity|].
  exact (TimeCast_negative_past_int32 Ucrt.runtime Ucrt.world2038 Ht).
Defined.

(** X3.  While every clock reading fits in a signed 32-bit [int] and the
    clock is not set back, the values returned by the [Time] and [TimeCast]
    calls of any sequence of calls, taken together in call order, never
    decrease: the narrow member is as monotone as the wide one, and the two
    can be compared with each other. *)
Theorem readings_monotone_within_int32
  (P : CRuntime) (cs : list call) (w : World P) :
  clock_not_set_back w -> clock_fits_int32 w ->
  StronglySorted Z.le (readings cs w).
Proof.
  revert w. induction cs as [|c cs IH]; intros w Hm Hf.
  - constructor.
  - assert (Hm' : clock_not_set_back (snd (step c w))).
    { intros i j Hij. rewrite step_clock. apply Hm. exact Hij. }
    assert (Hf' : clock_fits_int32 (snd (step c w))).
    { intros k. rewrite step_clock. apply Hf. }
    assert (Hlater :
      Forall (Z.le (now w)) (readings cs (snd (step c w)))).
    { eapply Forall_impl; [|apply (readings_from_clock cs _ Hf')].
      intros v [k [Hk Hv]]. subst v. rewrite step_clock.
      apply Hm. pose proof (step_reads c w). lia. }
    assert (H32 : in_int32 (now w)) by apply Hf.
    assert (H64 : in_int64 (now w)).
    { unfold in_int32, in_int64 in *. pow2. lia. }
    destruct c;
      try (rewrite readings_other by discriminate; apply IH; assumption).
    + rewrite readings_Time, (to_int64_fits _ H64).
      constructor; [apply IH; assumption | exact Hlater].
    + rewrite readings_TimeCast, (to_int32_fits _ H32).
      constructor; [apply IH; assumption | exact Hlater].
Qed.

Lemma readings_monotone_within_int32_witness :
  clock_not_set_back Ucrt32.world_2038_eve
  /\ clock_fits_int32 Ucrt32.world_2038_eve
  /\ readings [CTimeCast; CRand; CTime; CTimeCast; CSRand 3; CTimeCast]
       Ucrt32.world_2038_eve
     = [2147483645; 2147483646; 2147483647; 2147483647]
  /\ StronglySorted Z.le
       (readings [CTimeCast; CRand; CTime; CTimeCast; CSRand 3; CTimeCast]
          Ucrt32.world_2038_eve).
Proof.
  assert (Hm : clock_not_set_back Ucrt32.world_2038_eve).
  { apply ticking32_not_set_back. }
  assert (Hf : clock_fits_int32 Ucrt32.world_2038_eve).
  { apply ticking32_fits_int32. vm_compute. discriminate. }
  split; [exact Hm|]. split; [exact Hf|]. split; [vm_compute; reflexivity|].
  exact (readings_monotone_within_int32 Ucrt.runtime
           [CTimeCast; CRand; CTime; CTimeCast; CSRand 3; CTimeCast]
           Ucrt32.world_2038_eve Hm Hf).
Defined.

(** X4.  Seeding again replays the sequence inside one process: after
    [SRand s] and [m] calls of [Rand], a second [SRand s] followed by
    [n <= m] calls of [Rand] returns the first [n] of those [m] values
    again.  Assumes the runtime repeats the sequence of a seed. *)
Theorem reseeding_replays_draws
  (P : CRuntime) (s : Z) (m n : nat) (w : World P) :
  srand_repeats P -> (n <= m)%nat ->
  draws ((CSRand s :: repeat CRand m) ++ (CSRand s :: repeat CRand n)) w
  = draws (CSRand s :: repeat CRand m) w
    ++ firstn n (draws (CSRand s :: repeat CRand m) w).
Proof.
  intros Hs Hnm. rewrite draws_app. f_equal.
  rewrite !(draws_other (CSRand s)) by discriminate.
  rewrite !draws_repeat_Rand.
  rewrite c_sequence_prefix by exact Hnm.
  apply Hs.
Qed.

Lemma reseeding_replays_draws_witness :
  srand_repeats Ucrt.runtime /\ (2 <= 3)%nat
  /\ draws ((CSRand 1 :: repeat CRand 3) ++ (CSRand 1 :: repeat CRand 2))
       Ucrt.world2038
     = [41; 18467; 6334; 41; 18467]
  /\ draws ((CSRand 1 :: repeat CRand 3) ++ (CSRand 1 :: repeat CRand 2))
       Ucrt.world2038
     = draws (CSRand 1 :: repeat CRand 3) Ucrt.world2038
       ++ firstn 2 (draws (CSRand 1 :: repeat CRand 3) Ucrt.world2038).
Proof.
  split; [exact ucrt_srand_repeats|]. split; [lia|].
  split; [vm_compute; reflexivity|].
  apply (reseeding_replays_draws Ucrt.runtime 1 3 2 Ucrt.world2038
           ucrt_srand_repeats).
  lia.
Defined.

(** X5.  [TimeCast] cannot tell two clock readings apart exactly when they
    differ by a multiple of [2^32] seconds. *)
Theorem TimeCast_equal_iff_congruent (P : CRuntime) (w1 w2 : World P) :
  fst (TimeCast w1) = fst (TimeCast w2)
  <-> now w1 mod 2 ^ 32 = now w2 mod 2 ^ 32.
Proof.
  unfold TimeCast, time. simpl fst. apply to_int32_eq_iff.
Qed.
